(** * A shallow embedding of the round-robin load balancer (src/main.go)

    The pool of backends, the atomic rotation cursor, peer selection,
    status marking, the request handler [lb] and the reverse proxy's
    error handler are translated function by function.  Pointers to
    backends are represented by their index in the pool; a Go runtime
    panic (integer division by zero) is represented by [None]. *)

From Stdlib Require Import ZArith Lia List Ascii String Bool Relations Wellfounded.
Import ListNotations.

(** ** Machine integers *)

(** [uint64] arithmetic wraps modulo 2^64. *)
Definition uint64_modulus : Z := (2 ^ 64)%Z.

Definition wrap64 (x : Z) : Z := (x mod uint64_modulus)%Z.

(** [atomic.AddUint64(&c, d)]: the new value of the counter (which is
    also the value returned). *)
Definition AddUint64 (c d : Z) : Z := wrap64 (c + d).

(** Go's unsigned [%]: a zero divisor is a runtime panic. *)
Definition go_umod (x n : Z) : option Z :=
  if Z.eqb n 0 then None else Some (x mod n)%Z.

(** ** Data model *)

(** [Backend]: [URL] is held as its string form [URL.String()], which is
    what every comparison in the source uses; [ReverseProxy] is an opaque
    handle. The mutex only serialises accesses and carries no data. *)
Record Backend := mkBackend {
  URL : string;
  Alive : bool;
  ReverseProxy : nat
}.

Record ServerPool := mkPool {
  backends : list Backend;
  current : Z  (* uint64 *)
}.

Definition SetAlive (b : Backend) (alive : bool) : Backend :=
  mkBackend (URL b) alive (ReverseProxy b).

Definition IsAlive (b : Backend) : bool := Alive b.

(** ** ServerPool operations *)

(** [NextIndex]: [int(atomic.AddUint64(&s.current, 1) % uint64(len(s.backends)))]. *)
Definition NextIndex (s : ServerPool) : option (ServerPool * nat) :=
  let c := AddUint64 (current s) 1 in
  let s' := mkPool (backends s) c in
  match go_umod c (Z.of_nat (List.length (backends s))) with
  | None => None
  | Some r => Some (s', Z.to_nat r)
  end.

(** [s.backends[idx].IsAlive()]; the index is always in range where the
    source evaluates it (it is reduced modulo the length). *)
Definition alive_at (bs : list Backend) (idx : nat) : bool :=
  match nth_error bs idx with
  | Some b => IsAlive b
  | None => false
  end.

(** The loop [for i := nextIdx; i < l; i++] of [GetNextPeer], with [fuel]
    the number of iterations left ([l - i]).  On success it returns the
    loop variable [i] and the index [idx = i % len(s.backends)]. *)
Fixpoint peer_scan (bs : list Backend) (i fuel : nat) : option (nat * nat) :=
  match fuel with
  | O => None
  | S f =>
      let idx := Nat.modulo i (List.length bs) in
      if alive_at bs idx then Some (i, idx) else peer_scan bs (S i) f
  end.

(** [GetNextPeer]: [Some (s', None)] is the [nil] result. *)
Definition GetNextPeer (s : ServerPool) : option (ServerPool * option nat) :=
  match NextIndex s with
  | None => None
  | Some (s1, nextIdx) =>
      let l := List.length (backends s1) + nextIdx in
      match peer_scan (backends s1) nextIdx (l - nextIdx) with
      | Some (i, idx) =>
          let s2 := if Nat.eqb i nextIdx then s1
                    else mkPool (backends s1) (Z.of_nat idx) in
          Some (s2, Some idx)
      | None => Some (s1, None)
      end
  end.

(** The [range] loop of [MarkBackendStatus], with its [break]. *)
Fixpoint mark_loop (bs : list Backend) (u : string) (alive : bool) : list Backend :=
  match bs with
  | [] => []
  | b :: rest =>
      if String.eqb (URL b) u then SetAlive b alive :: rest
      else b :: mark_loop rest u alive
  end.

Definition MarkBackendStatus (s : ServerPool) (u : string) (alive : bool) : ServerPool :=
  mkPool (mark_loop (backends s) u alive) (current s).

(** ** Request context *)

(** The two context values keyed by [Attempts] and [Retry]; an unset key
    reads as 0, as [GetAttemptsFromContext] does. *)
Record Ctx := mkCtx {
  ctx_Attempts : nat;
  ctx_Retry : nat
}.

(** [GetAttemptsFromContext] reads the value stored under the key [Retry]. *)
Definition GetAttemptsFromContext (c : Ctx) : nat := ctx_Retry c.

Definition with_Attempts (c : Ctx) (v : nat) : Ctx := mkCtx v (ctx_Retry c).
Definition with_Retry (c : Ctx) (v : nat) : Ctx := mkCtx (ctx_Attempts c) v.

(** ** The handler [lb] *)

Inductive LbOutcome :=
| Unavailable_MaxAttempts          (* "Max attempts reached": 503 *)
| Unavailable_NoPeer               (* no backend available: 503 *)
| Forward (idx : nat) (c : Ctx).   (* peer.ReverseProxy.ServeHTTP(w, r) *)

Definition status_code (o : LbOutcome) : option nat :=
  match o with
  | Unavailable_MaxAttempts | Unavailable_NoPeer => Some 503
  | Forward _ _ => None
  end.

Definition lb (s : ServerPool) (c : Ctx) : option (ServerPool * LbOutcome) :=
  let attempts := GetAttemptsFromContext c in
  if Nat.ltb 3 attempts then Some (s, Unavailable_MaxAttempts)
  else
    match GetNextPeer s with
    | None => None
    | Some (s', Some idx) => Some (s', Forward idx c)
    | Some (s', None) => Some (s', Unavailable_NoPeer)
    end.

(** ** The proxy's [ErrorHandler] *)

Inductive HandlerAction :=
| RetrySame (delay_ms : nat) (c : Ctx)  (* sleep, then proxy.ServeHTTP on the same backend *)
| Reroute (c : Ctx).                    (* lb(writer, request.WithContext(ctx)) *)

Definition ErrorHandler (s : ServerPool) (serverUrl : string) (c : Ctx)
  : ServerPool * HandlerAction :=
  let retries := GetAttemptsFromContext c in
  if Nat.ltb retries 3 then (s, RetrySame 10 (with_Retry c (retries + 1)))
  else
    let s' := MarkBackendStatus s serverUrl false in
    let attempts := GetAttemptsFromContext c in
    (s', Reroute (with_Attempts c (attempts + 1))).

(** ** The life of one inbound request

    [Routing c] is a call of [lb] with context [c]; [Dispatched idx c] is
    a request handed to backend [idx]'s reverse proxy.  The closure
    [ErrorHandler] of backend [idx] captures that backend's URL, which is
    immutable, so it is read back from the pool. *)

Inductive ReqState :=
| Routing (c : Ctx)
| Dispatched (idx : nat) (c : Ctx)
| Completed
| Failed.

Definition after_handler (idx : nat) (a : HandlerAction) : ReqState :=
  match a with
  | RetrySame _ c => Dispatched idx c
  | Reroute c => Routing c
  end.

(** Operations of other, concurrent requests on the shared pool. *)
Inductive env_op : ServerPool -> ServerPool -> Prop :=
| env_peer s s' r : GetNextPeer s = Some (s', r) -> env_op s s'
| env_mark s u a : env_op s (MarkBackendStatus s u a).

Inductive req_step : ServerPool * ReqState -> ServerPool * ReqState -> Prop :=
| step_forward s c s' idx c' :
    lb s c = Some (s', Forward idx c') ->
    req_step (s, Routing c) (s', Dispatched idx c')
| step_unavailable s c s' o :
    lb s c = Some (s', o) -> status_code o = Some 503 ->
    req_step (s, Routing c) (s', Failed)
| step_success s idx c :
    req_step (s, Dispatched idx c) (s, Completed)
| step_failure s idx c b s' a :
    nth_error (backends s) idx = Some b ->
    ErrorHandler s (URL b) c = (s', a) ->
    req_step (s, Dispatched idx c) (s', after_handler idx a)
| step_env s s' st :
    env_op s s' -> req_step (s, st) (s', st).

Definition req_steps := clos_refl_trans_1n _ req_step.

(** A fresh inbound request carries no context values. *)
Definition fresh_ctx : Ctx := mkCtx 0 0.

Definition ctx_of (st : ReqState) : option Ctx :=
  match st with
  | Routing c | Dispatched _ c => Some c
  | Completed | Failed => None
  end.

(** ** Successive selections with no status change *)

Fixpoint select_calls (s : ServerPool) (m : nat) : option (ServerPool * list (option nat)) :=
  match m with
  | O => Some (s, [])
  | S m' =>
      match GetNextPeer s with
      | None => None
      | Some (s1, r) =>
          match select_calls s1 m' with
          | None => None
          | Some (s2, rs) => Some (s2, r :: rs)
          end
      end
  end.

(** ** Interleaved atomic increments

    [K] goroutines each executing [NextIndex]: each [atomic.AddUint64] is
    one indivisible step on the cursor, so a run is a schedule (the order
    in which the threads' atomic steps take effect).  Each step records
    the thread and the cursor value it consumed. *)
Fixpoint atomic_adds (c : Z) (sched : list nat) : Z * list (nat * Z) :=
  match sched with
  | [] => (c, [])
  | t :: rest =>
      let '(cf, obs) := atomic_adds (AddUint64 c 1) rest in
      (cf, (t, c) :: obs)
  end.

(** ** Address matching *)

(** [j] is the position of the first backend whose address is [u]. *)
Definition is_first_match (bs : list Backend) (u : string) (j : nat) : bool :=
  match nth_error bs j with
  | Some b => String.eqb (URL b) u
              && forallb (fun b' => negb (String.eqb (URL b') u)) (firstn j bs)
  | None => false
  end.

(** ** Sample pools *)

Definition be (u : string) (a : bool) (h : nat) : Backend := mkBackend u a h.

Definition pool_ABC (cur : Z) : ServerPool :=
  mkPool [be "http://A" true 0; be "http://B" true 1; be "http://C" true 2] cur.

Definition pool_AB : ServerPool :=
  mkPool [be "http://A" true 0; be "http://B" true 1] 0.

(** * Properties *)

(** ** Arithmetic on the cursor *)

Lemma uint64_modulus_pos : (0 < uint64_modulus)%Z.
Proof. unfold uint64_modulus; lia. Qed.

Lemma AddUint64_range c d : (0 <= AddUint64 c d < uint64_modulus)%Z.
Proof. unfold AddUint64, wrap64. apply Z.mod_pos_bound, uint64_modulus_pos. Qed.

Lemma NextIndex_eq s :
  (0 < List.length (backends s))%nat ->
  NextIndex s =
    Some (mkPool (backends s) (AddUint64 (current s) 1),
          Z.to_nat (AddUint64 (current s) 1 mod Z.of_nat (List.length (backends s)))).
Proof.
  intros H. unfold NextIndex, go_umod.
  destruct (Z.eqb_spec (Z.of_nat (List.length (backends s))) 0); [lia | reflexivity].
Qed.

Lemma NextIndex_empty s :
  List.length (backends s) = 0%nat -> NextIndex s = None.
Proof. intros H. unfold NextIndex, go_umod. now rewrite H. Qed.

Lemma mod_index_lt (x : Z) (n : nat) :
  (0 < n)%nat -> (Z.to_nat (x mod Z.of_nat n) < n)%nat.
Proof.
  intros H. pose proof (Z.mod_pos_bound x (Z.of_nat n) ltac:(lia)). lia.
Qed.

Lemma NextIndex_inv s s1 st :
  NextIndex s = Some (s1, st) ->
  (0 < List.length (backends s))%nat /\
  s1 = mkPool (backends s) (AddUint64 (current s) 1) /\
  st = Z.to_nat (AddUint64 (current s) 1 mod Z.of_nat (List.length (backends s))) /\
  (st < List.length (backends s))%nat.
Proof.
  intros H. destruct (List.length (backends s)) eqn:E.
  - rewrite NextIndex_empty in H by exact E. discriminate.
  - assert (HN : (0 < List.length (backends s))%nat) by lia.
    rewrite NextIndex_eq in H by exact HN. injection H as <- <-.
    rewrite <- E. split; [exact HN|]. split; [reflexivity|]. split; [reflexivity|].
    apply mod_index_lt, HN.
Qed.

(** ** The scan loop of [GetNextPeer] *)

Lemma peer_scan_some bs i f i' idx :
  peer_scan bs i f = Some (i', idx) ->
  exists k, (k < f)%nat /\ i' = (i + k)%nat /\
    idx = Nat.modulo (i + k) (List.length bs) /\ alive_at bs idx = true /\
    (forall j, (j < k)%nat -> alive_at bs (Nat.modulo (i + j) (List.length bs)) = false).
Proof.
  revert i. induction f as [|f IH]; simpl; intros i H; [discriminate|].
  destruct (alive_at bs (Nat.modulo i (List.length bs))) eqn:E.
  - injection H as <- <-. exists 0%nat. rewrite Nat.add_0_r.
    repeat split; auto; [lia | intros j Hj; lia].
  - destruct (IH (S i) H) as (k & Hk & Hi & Hidx & Ha & Hb).
    exists (S k). split; [lia|]. split; [lia|].
    split; [rewrite Hidx; f_equal; lia|]. split; [exact Ha|].
    intros j Hj. destruct j as [|j]; [rewrite Nat.add_0_r; exact E|].
    replace (i + S j)%nat with (S i + j)%nat by lia. apply Hb; lia.
Qed.

Lemma peer_scan_none bs i f :
  peer_scan bs i f = None ->
  forall j, (j < f)%nat -> alive_at bs (Nat.modulo (i + j) (List.length bs)) = false.
Proof.
  revert i. induction f as [|f IH]; simpl; intros i H j Hj; [lia|].
  destruct (alive_at bs (Nat.modulo i (List.length bs))) eqn:E; [discriminate|].
  destruct j as [|j]; [rewrite Nat.add_0_r; exact E|].
  replace (i + S j)%nat with (S i + j)%nat by lia. apply IH; [exact H | lia].
Qed.

(** Every position of the pool is reached by a cyclic scan of length [n]
    started anywhere in range. *)
Lemma cyclic_cover n st j :
  (st < n)%nat -> (j < n)%nat ->
  exists k, (k < n)%nat /\ Nat.modulo (st + k) n = j.
Proof.
  intros Hst Hj. destruct (Nat.le_gt_cases st j) as [Hle|Hgt].
  - exists (j - st)%nat. split; [lia|].
    replace (st + (j - st))%nat with j by lia. apply Nat.mod_small, Hj.
  - exists (n - st + j)%nat. split; [lia|].
    replace (st + (n - st + j))%nat with (j + 1 * n)%nat by lia.
    rewrite Nat.Div0.mod_add. apply Nat.mod_small, Hj.
Qed.

Lemma alive_at_lt bs idx : alive_at bs idx = true -> (idx < List.length bs)%nat.
Proof.
  unfold alive_at. destruct (nth_error bs idx) eqn:E; [|discriminate].
  intros _. apply nth_error_Some. rewrite E. discriminate.
Qed.

Lemma GetNextPeer_eq s s1 st :
  NextIndex s = Some (s1, st) ->
  GetNextPeer s =
    match peer_scan (backends s) st (List.length (backends s)) with
    | Some (i, idx) =>
        Some (if Nat.eqb i st then s1 else mkPool (backends s) (Z.of_nat idx), Some idx)
    | None => Some (s1, None)
    end.
Proof.
  intros H. pose proof (NextIndex_inv _ _ _ H) as (_ & Hs1 & _ & _).
  unfold GetNextPeer. rewrite H. subst s1. simpl.
  now replace (List.length (backends s) + st - st)%nat with (List.length (backends s)) by lia.
Qed.

Lemma GetNextPeer_empty s :
  List.length (backends s) = 0%nat -> GetNextPeer s = None.
Proof. intros H. unfold GetNextPeer. now rewrite NextIndex_empty. Qed.

(** ** C7 *)

(** C7: on a non-empty pool, [NextIndex] adds 1 to the cursor modulo
    2^64 (so the cursor never resets except by wrapping from 2^64-1 to 0),
    leaves the backends unchanged, and returns the new cursor modulo the
    number of backends, an index in [0, N-1]. *)
Theorem NextIndex_increments_mod (s : ServerPool)
  (HN : (0 < List.length (backends s))%nat) :
  exists s' i,
    NextIndex s = Some (s', i) /\
    backends s' = backends s /\
    current s' = ((current s + 1) mod 2 ^ 64)%Z /\
    Z.of_nat i = (current s' mod Z.of_nat (List.length (backends s)))%Z /\
    (i < List.length (backends s))%nat.
Proof.
  rewrite (NextIndex_eq s HN).
  eexists _, _. split; [reflexivity|]. simpl.
  split; [reflexivity|]. split; [reflexivity|].
  pose proof (Z.mod_pos_bound (AddUint64 (current s) 1)
                (Z.of_nat (List.length (backends s))) ltac:(lia)).
  split; [lia|]. apply mod_index_lt, HN.
Qed.

Lemma NextIndex_increments_mod_witness :
  (0 < List.length (backends (pool_ABC (2 ^ 64 - 1))))%nat /\
  exists s' i,
    NextIndex (pool_ABC (2 ^ 64 - 1)) = Some (s', i) /\
    backends s' = backends (pool_ABC (2 ^ 64 - 1)) /\
    current s' = ((current (pool_ABC (2 ^ 64 - 1)) + 1) mod 2 ^ 64)%Z /\
    Z.of_nat i = (current s' mod Z.of_nat (List.length (backends (pool_ABC (2 ^ 64 - 1)))))%Z /\
    (i < List.length (backends (pool_ABC (2 ^ 64 - 1))))%nat.
Proof.
  split; [simpl; lia|].
  apply (NextIndex_increments_mod (pool_ABC (2 ^ 64 - 1))). simpl; lia.
Defined.

(** ** C10 *)

(** C10: [NextIndex] and [GetNextPeer] are total on every non-empty pool
    and yield in-range indices, while on an empty pool both fail (Go's
    integer division by zero panics). *)
Theorem pool_ops_partial_on_empty (s : ServerPool) :
  (List.length (backends s) = 0%nat ->
     NextIndex s = None /\ GetNextPeer s = None) /\
  ((0 < List.length (backends s))%nat ->
     (exists s1 i, NextIndex s = Some (s1, i) /\ (i < List.length (backends s))%nat) /\
     (exists s2 r, GetNextPeer s = Some (s2, r) /\
        forall idx, r = Some idx -> (idx < List.length (backends s))%nat)).
Proof.
  split.
  - intros H. split; [apply NextIndex_empty | apply GetNextPeer_empty]; exact H.
  - intros HN. rewrite (NextIndex_eq s HN). split.
    + eexists _, _. split; [reflexivity|]. apply mod_index_lt, HN.
    + rewrite (GetNextPeer_eq s _ _ (NextIndex_eq s HN)).
      destruct (peer_scan _ _ _) as [[i idx]|] eqn:E.
      * eexists _, _. split; [reflexivity|]. intros idx' [= <-].
        apply peer_scan_some in E as (k & _ & _ & Hidx & _).
        rewrite Hidx. apply Nat.mod_upper_bound. lia.
      * eexists _, _. split; [reflexivity|]. discriminate.
Qed.

Lemma pool_ops_partial_on_empty_witness :
  (NextIndex (mkPool [] 0) = None /\ GetNextPeer (mkPool [] 0) = None) /\
  (exists s2 r, GetNextPeer (pool_ABC 0) = Some (s2, r) /\
     forall idx, r = Some idx -> (idx < 3)%nat).
Proof.
  split.
  - apply (pool_ops_partial_on_empty (mkPool [] 0)). reflexivity.
  - apply (pool_ops_partial_on_empty (pool_ABC 0)). simpl; lia.
Defined.

(** ** C3 *)

(** C3: on a pool of [N >= 1] backends, [GetNextPeer] scans at most [N]
    positions cyclically from the index [st] given by [NextIndex] and
    returns the first alive backend met; it returns [nil] exactly when no
    backend is alive; when exactly one backend is alive it returns that
    one, whatever the cursor. *)
Theorem GetNextPeer_first_alive (s s1 : ServerPool) (st : nat)
  (HN : (0 < List.length (backends s))%nat)
  (Hn : NextIndex s = Some (s1, st)) :
  exists s' r,
    GetNextPeer s = Some (s', r) /\
    (forall idx, r = Some idx ->
       exists k, (k < List.length (backends s))%nat /\
         idx = Nat.modulo (st + k) (List.length (backends s)) /\
         alive_at (backends s) idx = true /\
         (forall j, (j < k)%nat ->
            alive_at (backends s) (Nat.modulo (st + j) (List.length (backends s))) = false)) /\
    (r = None <->
       forall j, (j < List.length (backends s))%nat -> alive_at (backends s) j = false) /\
    (forall a, (a < List.length (backends s))%nat -> alive_at (backends s) a = true ->
       (forall b, (b < List.length (backends s))%nat -> alive_at (backends s) b = true -> b = a) ->
       r = Some a).
Proof.
  pose proof (NextIndex_inv _ _ _ Hn) as (_ & _ & _ & Hst).
  rewrite (GetNextPeer_eq _ _ _ Hn).
  destruct (peer_scan (backends s) st (List.length (backends s))) as [[i idx]|] eqn:E.
  - pose proof (peer_scan_some _ _ _ _ _ E) as (k & Hk & Hi & Hidx & Ha & Hb).
    eexists _, _. split; [reflexivity|]. split.
    + intros idx' [= <-]. exists k. auto.
    + split.
      * split; [discriminate|]. intros Hall.
        rewrite (Hall idx) in Ha; [discriminate|]. apply alive_at_lt, Ha.
      * intros a Ha' Haa Huniq. f_equal. apply Huniq; [apply alive_at_lt|]; exact Ha.
  - pose proof (peer_scan_none _ _ _ E) as Hnone.
    assert (Hall : forall j, (j < List.length (backends s))%nat ->
                     alive_at (backends s) j = false).
    { intros j Hj. destruct (cyclic_cover _ _ _ Hst Hj) as (k & Hk & <-).
      apply Hnone, Hk. }
    eexists _, _. split; [reflexivity|]. split; [discriminate|]. split.
    + split; [intros _; exact Hall | reflexivity].
    + intros a Ha Haa _. rewrite Hall in Haa by exact Ha. discriminate.
Qed.

Lemma GetNextPeer_first_alive_witness :
  (0 < 3)%nat /\
  exists s' r,
    GetNextPeer (pool_ABC 0) = Some (s', r) /\
    (forall idx, r = Some idx ->
       exists k, (k < 3)%nat /\ idx = Nat.modulo (1 + k) 3 /\
         alive_at (backends (pool_ABC 0)) idx = true /\
         (forall j, (j < k)%nat -> alive_at (backends (pool_ABC 0)) (Nat.modulo (1 + j) 3) = false)) /\
    (r = None <-> forall j, (j < 3)%nat -> alive_at (backends (pool_ABC 0)) j = false) /\
    (forall a, (a < 3)%nat -> alive_at (backends (pool_ABC 0)) a = true ->
       (forall b, (b < 3)%nat -> alive_at (backends (pool_ABC 0)) b = true -> b = a) ->
       r = Some a).
Proof.
  split; [lia|].
  apply (GetNextPeer_first_alive (pool_ABC 0) (mkPool (backends (pool_ABC 0)) 1) 1).
  - simpl; lia.
  - vm_compute. reflexivity.
Defined.

(** ** C6 *)

(** C6: [GetNextPeer] never changes the backends; when the first candidate
    is alive it returns it and the pool is left as [NextIndex] left it;
    when the first alive backend is found later in the scan the cursor is
    set to that backend's index itself; with no alive backend only the
    increment remains. *)
Theorem GetNextPeer_cursor_effect (s s1 s' : ServerPool) (st : nat) (r : option nat)
  (Hn : NextIndex s = Some (s1, st))
  (Hg : GetNextPeer s = Some (s', r)) :
  backends s' = backends s /\
  s1 = mkPool (backends s) (AddUint64 (current s) 1) /\
  (alive_at (backends s) st = true -> r = Some st /\ s' = s1) /\
  (alive_at (backends s) st = false ->
     forall idx, r = Some idx -> s' = mkPool (backends s) (Z.of_nat idx)) /\
  (r = None -> s' = s1).
Proof.
  pose proof (NextIndex_inv _ _ _ Hn) as (HN & Hs1 & _ & Hst).
  rewrite (GetNextPeer_eq _ _ _ Hn) in Hg.
  assert (Hfirst : Nat.modulo (st + 0) (List.length (backends s)) = st)
    by (rewrite Nat.add_0_r; apply Nat.mod_small, Hst).
  destruct (peer_scan (backends s) st (List.length (backends s))) as [[i idx]|] eqn:E;
    injection Hg as <- <-.
  - pose proof (peer_scan_some _ _ _ _ _ E) as (k & Hk & Hi & Hidx & Ha & Hb).
    destruct k as [|k].
    + subst i. rewrite Hfirst in Hidx. subst idx.
      replace (Nat.eqb (st + 0) st) with true by (symmetry; apply Nat.eqb_eq; lia).
      split; [subst s1; reflexivity|]. split; [exact Hs1|].
      split; [auto|]. split; [|discriminate].
      intros Hdead. rewrite Hdead in Ha. discriminate.
    + assert (Hne : Nat.eqb i st = false) by (apply Nat.eqb_neq; lia).
      rewrite Hne. split; [reflexivity|]. split; [exact Hs1|]. split.
      * intros Halive. specialize (Hb 0%nat ltac:(lia)). rewrite Hfirst, Halive in Hb.
        discriminate.
      * split; [intros _ idx' [= <-]; reflexivity | discriminate].
  - split; [subst s1; reflexivity|]. split; [exact Hs1|]. split.
    + intros Halive. pose proof (peer_scan_none _ _ _ E 0%nat ltac:(lia)) as H0.
      rewrite Hfirst, Halive in H0. discriminate.
    + split; [discriminate | reflexivity].
Qed.

Definition pool_A_deadB_C : ServerPool :=
  mkPool [be "http://A" true 0; be "http://B" false 1; be "http://C" true 2] 0.

Lemma GetNextPeer_cursor_effect_witness :
  NextIndex pool_A_deadB_C = Some (mkPool (backends pool_A_deadB_C) 1, 1%nat) /\
  GetNextPeer pool_A_deadB_C = Some (mkPool (backends pool_A_deadB_C) 2, Some 2%nat) /\
  (alive_at (backends pool_A_deadB_C) 1 = false ->
     forall idx, Some 2%nat = Some idx ->
       mkPool (backends pool_A_deadB_C) 2 = mkPool (backends pool_A_deadB_C) (Z.of_nat idx)).
Proof.
  assert (Hn : NextIndex pool_A_deadB_C = Some (mkPool (backends pool_A_deadB_C) 1, 1%nat))
    by (vm_compute; reflexivity).
  assert (Hg : GetNextPeer pool_A_deadB_C = Some (mkPool (backends pool_A_deadB_C) 2, Some 2%nat))
    by (vm_compute; reflexivity).
  split; [exact Hn|]. split; [exact Hg|].
  exact (proj1 (proj2 (proj2 (proj2
           (GetNextPeer_cursor_effect _ _ _ _ _ Hn Hg))))).
Defined.

(** ** Selection on a fully alive pool *)

Definition all_alive (bs : list Backend) : bool := forallb IsAlive bs.

Lemma all_alive_at bs j :
  all_alive bs = true -> (j < List.length bs)%nat -> alive_at bs j = true.
Proof.
  intros Hall Hj. unfold alive_at.
  destruct (nth_error bs j) as [b|] eqn:E.
  - apply nth_error_In in E. unfold all_alive in Hall.
    rewrite forallb_forall in Hall. apply Hall, E.
  - apply nth_error_None in E. lia.
Qed.

Lemma peer_scan_hit bs i f :
  alive_at bs (Nat.modulo i (List.length bs)) = true -> (0 < f)%nat ->
  peer_scan bs i f = Some (i, Nat.modulo i (List.length bs)).
Proof. destruct f as [|f]; [lia|]. intros H _. simpl. now rewrite H. Qed.

Lemma GetNextPeer_all_alive s :
  all_alive (backends s) = true -> (0 < List.length (backends s))%nat ->
  GetNextPeer s =
    Some (mkPool (backends s) (AddUint64 (current s) 1),
          Some (Z.to_nat (AddUint64 (current s) 1 mod Z.of_nat (List.length (backends s))))).
Proof.
  intros Hall HN.
  pose proof (NextIndex_eq s HN) as Hn.
  pose proof (NextIndex_inv _ _ _ Hn) as (_ & _ & _ & Hst).
  rewrite (GetNextPeer_eq _ _ _ Hn).
  rewrite peer_scan_hit;
    [| rewrite (Nat.mod_small _ _ Hst); apply all_alive_at; assumption | exact HN].
  now rewrite Nat.eqb_refl, (Nat.mod_small _ _ Hst).
Qed.

Lemma wrap64_add_l a b : wrap64 (wrap64 a + b) = wrap64 (a + b).
Proof. unfold wrap64. apply Zplus_mod_idemp_l. Qed.

Lemma select_calls_all_alive bs m :
  all_alive bs = true -> (0 < List.length bs)%nat ->
  forall cur, (0 <= cur < uint64_modulus)%Z ->
  select_calls (mkPool bs cur) m =
    Some (mkPool bs (wrap64 (cur + Z.of_nat m)),
          map (fun j => Some (Z.to_nat (wrap64 (cur + Z.of_nat j) mod Z.of_nat (List.length bs))))
              (seq 1 m)).
Proof.
  intros Hall HN. induction m as [|m IH]; intros cur Hc.
  - simpl. unfold wrap64. rewrite Z.add_0_r, Z.mod_small by exact Hc. reflexivity.
  - simpl select_calls.
    rewrite (GetNextPeer_all_alive (mkPool bs cur) Hall HN). simpl backends; simpl current.
    rewrite (IH _ (AddUint64_range cur 1)).
    unfold AddUint64. rewrite wrap64_add_l.
    replace (cur + 1 + Z.of_nat m)%Z with (cur + Z.of_nat (S m))%Z by lia.
    do 2 f_equal. change (seq 1 (S m)) with (1%nat :: seq 2 m).
    rewrite <- (seq_shift m 1), map_cons, map_map. f_equal.
    apply map_ext. intros j. rewrite wrap64_add_l.
    do 4 f_equal. lia.
Qed.

(** ** C5 *)

(** C5 (as the code has it): on a fully alive pool with cursor [c], the
    [j]-th of successive selections returns index [((c + j) mod 2^64) mod N];
    as long as the cursor does not wrap during the calls this is
    [(c + j) mod N], which cycles through the [N] backends in order with
    period [N]; for [A, B, C] from cursor 0 the first four calls return
    B, C, A, B. *)
Theorem select_calls_round_robin (bs : list Backend) (cur : Z) (m : nat)
  (Hall : all_alive bs = true) (HN : (0 < List.length bs)%nat)
  (Hc : (0 <= cur < 2 ^ 64)%Z) :
  select_calls (mkPool bs cur) m =
    Some (mkPool bs ((cur + Z.of_nat m) mod 2 ^ 64),
          map (fun j => Some (Z.to_nat (((cur + Z.of_nat j) mod 2 ^ 64) mod Z.of_nat (List.length bs))))
              (seq 1 m)) /\
  ((cur + Z.of_nat m < 2 ^ 64)%Z ->
   select_calls (mkPool bs cur) m =
     Some (mkPool bs (cur + Z.of_nat m),
           map (fun j => Some (Nat.modulo (Z.to_nat cur + j) (List.length bs))) (seq 1 m))) /\
  select_calls (pool_ABC 0) 4 = Some (pool_ABC 4, [Some 1; Some 2; Some 0; Some 1]%nat).
Proof.
  pose proof (select_calls_all_alive bs m Hall HN cur Hc) as H.
  split; [exact H|]. split; [| vm_compute; reflexivity].
  intros Hm. rewrite H. unfold wrap64, uint64_modulus.
  rewrite (Z.mod_small (cur + Z.of_nat m)) by lia.
  do 2 f_equal. apply map_ext_in. intros j Hj. apply in_seq in Hj.
  rewrite (Z.mod_small (cur + Z.of_nat j)) by lia.
  f_equal. rewrite <- (Z2Nat.id cur) at 1 by lia.
  rewrite <- Nat2Z.inj_add, <- Nat2Z.inj_mod, Nat2Z.id. reflexivity.
Qed.

Lemma select_calls_round_robin_witness :
  all_alive (backends (pool_ABC 0)) = true /\
  select_calls (pool_ABC 0) 4 = Some (pool_ABC 4, [Some 1; Some 2; Some 0; Some 1]%nat).
Proof.
  split; [reflexivity|].
  exact (proj2 (proj2 (select_calls_round_robin (backends (pool_ABC 0)) 0 4
           eq_refl ltac:(simpl; lia) ltac:(lia)))).
Defined.

(** C5, counterexample: three alive backends and the cursor two steps
    before the end of the uint64 range.  Two successive selections both
    return A: the rotation is broken where the cursor wraps from
    2^64 - 1 to 0, since 3 does not divide 2^64. *)
Lemma select_calls_wrap_repeats :
  all_alive (backends (pool_ABC (2 ^ 64 - 2))) = true /\
  select_calls (pool_ABC (2 ^ 64 - 2)) 2 = Some (pool_ABC 0, [Some 0; Some 0]%nat).
Proof. split; vm_compute; reflexivity. Qed.

(** ** C8 *)

Lemma mark_loop_length bs u a : List.length (mark_loop bs u a) = List.length bs.
Proof.
  induction bs as [|b bs IH]; simpl; [reflexivity|].
  destruct (String.eqb (URL b) u); simpl; congruence.
Qed.

Lemma mark_loop_nth bs u a j b :
  nth_error bs j = Some b ->
  exists b', nth_error (mark_loop bs u a) j = Some b' /\
    URL b' = URL b /\ ReverseProxy b' = ReverseProxy b /\
    Alive b' = (if is_first_match bs u j then a else Alive b).
Proof.
  revert j. induction bs as [|b0 bs IH]; intros j Hj; [destruct j; discriminate|].
  unfold is_first_match. simpl mark_loop.
  destruct (String.eqb (URL b0) u) eqn:Eu; destruct j as [|j]; simpl in Hj |- *.
  - injection Hj as <-. eexists. split; [reflexivity|]. simpl. rewrite Eu. auto.
  - rewrite Hj. eexists. split; [reflexivity|].
    rewrite Eu. simpl. rewrite andb_false_r. auto.
  - injection Hj as <-. eexists. split; [reflexivity|]. rewrite Eu. auto.
  - destruct (IH j Hj) as (b' & Hb' & H1 & H2 & H3).
    exists b'. split; [exact Hb'|]. split; [exact H1|]. split; [exact H2|].
    rewrite H3. unfold is_first_match. rewrite Hj. rewrite Eu. reflexivity.
Qed.

(** C8: [MarkBackendStatus s u a] keeps the cursor, the number of backends
    and every backend's address and proxy; it sets the liveness of the
    first backend whose address string equals [u] to [a] and leaves the
    liveness of every other backend, later duplicates included, as it was. *)
Theorem MarkBackendStatus_first_match_only (s : ServerPool) (u : string) (a : bool)
  (j : nat) (b : Backend)
  (Hj : nth_error (backends s) j = Some b) :
  current (MarkBackendStatus s u a) = current s /\
  List.length (backends (MarkBackendStatus s u a)) = List.length (backends s) /\
  exists b', nth_error (backends (MarkBackendStatus s u a)) j = Some b' /\
    URL b' = URL b /\ ReverseProxy b' = ReverseProxy b /\
    Alive b' = (if is_first_match (backends s) u j then a else Alive b).
Proof.
  split; [reflexivity|]. split; [apply mark_loop_length|].
  apply mark_loop_nth, Hj.
Qed.

Definition pool_dup : ServerPool :=
  mkPool [be "http://A" true 0; be "http://B" true 1; be "http://B" true 2] 5.

Lemma MarkBackendStatus_first_match_only_witness :
  current (MarkBackendStatus pool_dup "http://B" false) = current pool_dup /\
  List.length (backends (MarkBackendStatus pool_dup "http://B" false)) =
    List.length (backends pool_dup) /\
  exists b', nth_error (backends (MarkBackendStatus pool_dup "http://B" false)) 2 = Some b' /\
    URL b' = "http://B"%string /\ ReverseProxy b' = 2%nat /\
    Alive b' = (if is_first_match (backends pool_dup) "http://B" 2 then false else true).
Proof.
  exact (MarkBackendStatus_first_match_only pool_dup "http://B" false 2
           (be "http://B" true 2) eq_refl).
Defined.

(** ** C9 *)

Lemma atomic_adds_pre_values c sched :
  (0 <= c < uint64_modulus)%Z ->
  map snd (snd (atomic_adds c sched)) =
    map (fun j => wrap64 (c + Z.of_nat j)) (seq 0 (List.length sched)).
Proof.
  revert c. induction sched as [|t rest IH]; intros c Hc; [reflexivity|].
  simpl. destruct (atomic_adds (AddUint64 c 1) rest) as [cf obs] eqn:E.
  simpl. pose proof (IH _ (AddUint64_range c 1)) as H. rewrite E in H. simpl in H.
  f_equal.
  - unfold wrap64. rewrite Z.add_0_r, Z.mod_small by exact Hc. reflexivity.
  - rewrite H, <- (seq_shift _ 0), map_map. apply map_ext. intros j.
    unfold AddUint64. rewrite wrap64_add_l. f_equal. lia.
Qed.

Lemma wrap64_inj c i j :
  (0 <= i < uint64_modulus)%Z -> (0 <= j < uint64_modulus)%Z ->
  wrap64 (c + i) = wrap64 (c + j) -> i = j.
Proof.
  unfold wrap64. intros Hi Hj H.
  pose proof uint64_modulus_pos as HM.
  pose proof (Z.div_mod (c + i) uint64_modulus ltac:(lia)) as D1.
  pose proof (Z.div_mod (c + j) uint64_modulus ltac:(lia)) as D2.
  assert (Hq : (((c + i) / uint64_modulus - (c + j) / uint64_modulus) * uint64_modulus
                = i - j)%Z) by lia.
  assert (((c + i) / uint64_modulus - (c + j) / uint64_modulus)%Z = 0%Z) by nia.
  nia.
Qed.

(** C9: whatever order the [K] atomic increments of [K] concurrent
    [NextIndex] calls take effect in, the [K] cursor values they consume
    are pairwise distinct (for [K <= 2^64], starting from a valid uint64
    cursor); the cursor ends [K] steps further. *)
Theorem NextIndex_concurrent_distinct (c : Z) (sched : list nat)
  (Hc : (0 <= c < 2 ^ 64)%Z)
  (HK : (Z.of_nat (List.length sched) <= 2 ^ 64)%Z) :
  NoDup (map snd (snd (atomic_adds c sched))) /\
  fst (atomic_adds c sched) = ((c + Z.of_nat (List.length sched)) mod 2 ^ 64)%Z.
Proof.
  split.
  - rewrite atomic_adds_pre_values by exact Hc.
    apply NoDup_map_NoDup_ForallPairs; [| apply seq_NoDup].
    intros i j Hi Hj Heq. apply in_seq in Hi, Hj.
    apply Nat2Z.inj. apply (wrap64_inj c); [unfold uint64_modulus; lia .. | exact Heq].
  - revert c Hc. induction sched as [|t rest IH]; intros c Hc; simpl.
    + rewrite Z.add_0_r, Z.mod_small by exact Hc. reflexivity.
    + destruct (atomic_adds (AddUint64 c 1) rest) as [cf obs] eqn:E. simpl.
      simpl in HK. pose proof (AddUint64_range c 1) as Hr. unfold uint64_modulus in Hr.
      pose proof (IH ltac:(lia) _ Hr) as H. rewrite E in H. simpl in H. rewrite H.
      unfold AddUint64, wrap64, uint64_modulus. rewrite Zplus_mod_idemp_l.
      f_equal. lia.
Qed.

Lemma NextIndex_concurrent_distinct_witness :
  NoDup (map snd (snd (atomic_adds (2 ^ 64 - 2) [0; 1; 2]%nat))) /\
  fst (atomic_adds (2 ^ 64 - 2) [0; 1; 2]%nat) = ((2 ^ 64 - 2 + 3) mod 2 ^ 64)%Z.
Proof.
  apply (NextIndex_concurrent_distinct (2 ^ 64 - 2) [0; 1; 2]%nat); simpl; lia.
Defined.

(** ** The retry and failover state machine *)

Lemma lb_forward_inv s c s' idx c' :
  lb s c = Some (s', Forward idx c') -> c' = c /\ (ctx_Retry c <= 3)%nat.
Proof.
  unfold lb, GetAttemptsFromContext.
  destruct (Nat.ltb_spec 3 (ctx_Retry c)); [discriminate|].
  destruct (GetNextPeer s) as [[s1 [i|]]|]; try discriminate.
  intros [= _ _ <-]. auto.
Qed.

Lemma ErrorHandler_cases s u c s' a :
  ErrorHandler s u c = (s', a) ->
  ((ctx_Retry c < 3)%nat /\ s' = s /\
     a = RetrySame 10 (mkCtx (ctx_Attempts c) (ctx_Retry c + 1))) \/
  ((3 <= ctx_Retry c)%nat /\ s' = MarkBackendStatus s u false /\
     a = Reroute (mkCtx (ctx_Retry c + 1) (ctx_Retry c))).
Proof.
  unfold ErrorHandler, GetAttemptsFromContext.
  destruct (Nat.ltb_spec (ctx_Retry c) 3); intros [= <- <-]; [left | right]; auto.
Qed.

(** Reachable request states carry a retry count of at most 3 and an
    attempt count of at most 4. *)
Definition ctx_bounded (st : ReqState) : Prop :=
  match ctx_of st with
  | Some c => (ctx_Retry c <= 3)%nat /\ (ctx_Attempts c <= 4)%nat
  | None => True
  end.

Lemma req_step_bounded x y :
  req_step x y -> ctx_bounded (snd x) -> ctx_bounded (snd y).
Proof.
  intros H Hb. destruct H as [s c s' idx c' Hlb | s c s' o _ _ | s idx c
                             | s idx c b s' a _ Heh | s s' st _]; simpl in *.
  - unfold ctx_bounded in *; simpl in *.
    destruct (lb_forward_inv _ _ _ _ _ Hlb) as [-> ?]. tauto.
  - exact I.
  - exact I.
  - unfold ctx_bounded in *; simpl in *.
    destruct (ErrorHandler_cases _ _ _ _ _ Heh) as [(? & _ & ->) | (? & _ & ->)];
      simpl; lia.
  - exact Hb.
Qed.

Lemma req_steps_bounded x y :
  req_steps x y -> ctx_bounded (snd x) -> ctx_bounded (snd y).
Proof.
  induction 1 as [x | x y z Hxy _ IH]; auto.
  intros Hx. apply IH, (req_step_bounded _ _ Hxy Hx).
Qed.

Lemma fresh_bounded : ctx_bounded (Routing fresh_ctx).
Proof. unfold ctx_bounded; simpl; lia. Qed.

(** X9: the ceiling test of [lb] never fires for a request that started
    with an empty context: it reads the [Retry] value, which stays at most 3. *)
Lemma lb_ceiling_unreachable s0 s c :
  req_steps (s0, Routing fresh_ctx) (s, Routing c) ->
  forall s', lb s c <> Some (s', Unavailable_MaxAttempts).
Proof.
  intros H s'. pose proof (req_steps_bounded _ _ H fresh_bounded) as [Hr _].
  unfold lb, GetAttemptsFromContext.
  destruct (Nat.ltb_spec 3 (ctx_Retry c)); [lia|].
  destruct (GetNextPeer s) as [[s1 [i|]]|]; discriminate.
Qed.

(** ** A concrete run: two backends, every forward fails *)

Definition bs_AB (a b : bool) : list Backend :=
  [be "http://A" a 0; be "http://B" b 1].

Ltac run_step :=
  eapply Relation_Operators.rt1n_trans;
  [ first [ eapply step_forward; reflexivity
          | eapply step_failure; reflexivity ] | ].

(** The request is forwarded to B, which fails four times: three retries on
    B, then B is marked dead. *)
Lemma run_AB_on_B :
  req_steps (mkPool (bs_AB true true) 0, Routing fresh_ctx)
            (mkPool (bs_AB true true) 1, Dispatched 1 (mkCtx 0 3)).
Proof. do 4 run_step. apply rt1n_refl. Qed.

Lemma failover_from_B :
  req_step (mkPool (bs_AB true true) 1, Dispatched 1 (mkCtx 0 3))
           (mkPool (bs_AB true false) 1, Routing (mkCtx 4 3)).
Proof.
  change (Routing (mkCtx 4 3)) with (after_handler 1 (Reroute (mkCtx 4 3))).
  eapply step_failure; reflexivity.
Qed.

Lemma run_AB_to_A :
  req_steps (mkPool (bs_AB true true) 0, Routing fresh_ctx)
            (mkPool (bs_AB true false) 2, Dispatched 0 (mkCtx 4 3)).
Proof.
  apply clos_rt_rt1n. eapply rt_trans; [apply clos_rt1n_rt, run_AB_on_B|].
  eapply rt_trans; [apply rt_step, failover_from_B|].
  apply rt_step. eapply step_forward. reflexivity.
Qed.

Lemma run_AB_failover :
  req_steps (mkPool (bs_AB true true) 0, Routing fresh_ctx)
            (mkPool (bs_AB true false) 1, Routing (mkCtx 4 3)).
Proof.
  apply clos_rt_rt1n. eapply rt_trans; [apply clos_rt1n_rt, run_AB_on_B|].
  apply rt_step, failover_from_B.
Qed.

(** ** C1 *)

(** C1, as the code behaves: after B's retries are exhausted the request
    re-enters [lb] with attempt count 4 (above the ceiling 3), yet [lb]
    does not stop it: [GetAttemptsFromContext] reads the [Retry] value (3),
    so [lb] calls [GetNextPeer], advancing the cursor, and forwards the
    request to A. *)
Theorem lb_ceiling_reads_retry_key :
  req_steps (mkPool (bs_AB true true) 0, Routing fresh_ctx)
            (mkPool (bs_AB true false) 1, Routing (mkCtx 4 3)) /\
  (3 < ctx_Attempts (mkCtx 4 3))%nat /\
  lb (mkPool (bs_AB true false) 1) (mkCtx 4 3) =
    Some (mkPool (bs_AB true false) 2, Forward 0 (mkCtx 4 3)).
Proof.
  split; [exact run_AB_failover|]. split; [simpl; lia|]. reflexivity.
Qed.

(** ** C2 *)

(** C2: a fresh request whose four forwards to B fail re-enters the router
    with retry count 3, not 0: the failover sets only the [Attempts] value
    and never resets [Retry], so the next backend starts with its retry
    budget already spent. *)
Lemma failover_retry_not_reset :
  req_steps (mkPool (bs_AB true true) 0, Routing fresh_ctx)
            (mkPool (bs_AB true true) 1, Dispatched 1 (mkCtx 0 3)) /\
  req_step (mkPool (bs_AB true true) 1, Dispatched 1 (mkCtx 0 3))
           (mkPool (bs_AB true false) 1, Routing (mkCtx 4 3)) /\
  ctx_Retry (mkCtx 4 3) <> 0%nat.
Proof.
  split; [exact run_AB_on_B|]. split; [exact failover_from_B | discriminate].
Qed.

(** ** C4 *)

(** C4, as the code behaves: the request that failed over to A (attempt
    count 4, retry count 3) fails there too; the handler marks A dead but
    sets the attempt count to the retry count plus one, i.e. 4 again,
    instead of incrementing it to 5. *)
Theorem ErrorHandler_attempts_from_retry_key :
  req_steps (mkPool (bs_AB true true) 0, Routing fresh_ctx)
            (mkPool (bs_AB true false) 2, Dispatched 0 (mkCtx 4 3)) /\
  ErrorHandler (mkPool (bs_AB true false) 2) "http://A" (mkCtx 4 3) =
    (mkPool (bs_AB false false) 2, Reroute (mkCtx 4 3)).
Proof. split; [exact run_AB_to_A | reflexivity]. Qed.

(** * Further properties of the pool and the handlers *)

(** ** What [GetNextPeer] returns *)

Lemma GetNextPeer_some s s' idx :
  GetNextPeer s = Some (s', Some idx) ->
  let N := List.length (backends s) in
  let st := Z.to_nat (AddUint64 (current s) 1 mod Z.of_nat N) in
  backends s' = backends s /\ alive_at (backends s) idx = true /\ (idx < N)%nat /\
  exists k, (k < N)%nat /\ idx = Nat.modulo (st + k) N /\
    (forall j, (j < k)%nat -> alive_at (backends s) (Nat.modulo (st + j) N) = false) /\
    ((k = 0%nat /\ current s' = AddUint64 (current s) 1) \/
     (0 < k)%nat /\ current s' = Z.of_nat idx).
Proof.
  intros H N st.
  destruct (List.length (backends s)) as [|n] eqn:EN.
  { rewrite GetNextPeer_empty in H by exact EN. discriminate. }
  assert (HN : (0 < List.length (backends s))%nat) by lia.
  pose proof (NextIndex_eq s HN) as Hn.
  pose proof (NextIndex_inv _ _ _ Hn) as (_ & _ & _ & Hst).
  rewrite (GetNextPeer_eq _ _ _ Hn) in H.
  destruct (peer_scan (backends s) _ _) as [[i idx']|] eqn:E; [|discriminate].
  apply peer_scan_some in E as (k & Hk & Hi & Hidx & Ha & Hb).
  injection H as Hs' <-. subst N st. rewrite <- EN in *.
  split; [destruct (Nat.eqb i _); subst s'; reflexivity|].
  split; [exact Ha|]. split; [apply alive_at_lt, Ha|].
  exists k. split; [exact Hk|]. split; [exact Hidx|]. split; [exact Hb|].
  destruct k as [|k].
  - left. split; [reflexivity|]. rewrite Hi, Nat.add_0_r, Nat.eqb_refl in Hs'.
    subst s'. reflexivity.
  - right. split; [lia|].
    assert (Hne : Nat.eqb i (Z.to_nat (AddUint64 (current s) 1
                      mod Z.of_nat (List.length (backends s)))) = false)
      by (apply Nat.eqb_neq; lia).
    rewrite Hne in Hs'. subst s'. reflexivity.
Qed.

Lemma peer_scan_all_dead bs i f :
  (forall j, alive_at bs j = false) -> peer_scan bs i f = None.
Proof.
  intros Hd. revert i. induction f as [|f IH]; intros i; simpl; [reflexivity|].
  rewrite Hd. apply IH.
Qed.

Lemma alive_at_dead_everywhere bs :
  (forall j, (j < List.length bs)%nat -> alive_at bs j = false) ->
  forall j, alive_at bs j = false.
Proof.
  intros H j. destruct (Nat.lt_ge_cases j (List.length bs)) as [Hj|Hj]; [auto|].
  unfold alive_at. rewrite (proj2 (nth_error_None bs j) Hj). reflexivity.
Qed.

(** X1: on a non-empty pool where no backend is alive, [lb] answers 503
    (the "no backend" path) for every request under the retry ceiling; the
    only change to the pool is the cursor increment of [NextIndex]. *)
Theorem lb_all_dead_unavailable (s : ServerPool) (c : Ctx)
  (HN : (0 < List.length (backends s))%nat)
  (Hdead : forall j, (j < List.length (backends s))%nat -> alive_at (backends s) j = false)
  (Hr : (ctx_Retry c <= 3)%nat) :
  lb s c = Some (mkPool (backends s) (AddUint64 (current s) 1), Unavailable_NoPeer).
Proof.
  unfold lb, GetAttemptsFromContext.
  destruct (Nat.ltb_spec 3 (ctx_Retry c)); [lia|].
  rewrite (GetNextPeer_eq _ _ _ (NextIndex_eq s HN)).
  rewrite peer_scan_all_dead by (apply alive_at_dead_everywhere, Hdead). reflexivity.
Qed.

Definition pool_all_dead : ServerPool :=
  mkPool [be "http://A" false 0; be "http://B" false 1] 7.

Lemma lb_all_dead_unavailable_witness :
  lb pool_all_dead fresh_ctx =
    Some (mkPool (backends pool_all_dead) (AddUint64 7 1), Unavailable_NoPeer).
Proof.
  apply (lb_all_dead_unavailable pool_all_dead fresh_ctx).
  - simpl; lia.
  - intros j Hj. simpl in Hj. destruct j as [|[|j]]; [reflexivity | reflexivity | lia].
  - simpl; lia.
Defined.

(** ** Demotion *)

Lemma mark_loop_absent bs u a :
  ~ In u (map URL bs) -> mark_loop bs u a = bs.
Proof.
  induction bs as [|b bs IH]; simpl; intros Hn; [reflexivity|].
  destruct (String.eqb_spec (URL b) u) as [E|E]; [tauto|].
  f_equal. apply IH. tauto.
Qed.

(** X2: marking an address that no backend has leaves the pool exactly as
    it was. *)
Theorem MarkBackendStatus_absent_noop (s : ServerPool) (u : string) (a : bool)
  (Hn : ~ In u (map URL (backends s))) :
  MarkBackendStatus s u a = s.
Proof.
  unfold MarkBackendStatus. rewrite (mark_loop_absent _ _ _ Hn).
  destruct s; reflexivity.
Qed.

Lemma MarkBackendStatus_absent_noop_witness :
  MarkBackendStatus pool_AB "http://C" false = pool_AB.
Proof.
  apply MarkBackendStatus_absent_noop. simpl.
  intros [H|[H|H]]; [discriminate | discriminate | exact H].
Defined.

Lemma is_first_match_unique bs u j b :
  NoDup (map URL bs) -> nth_error bs j = Some b -> URL b = u ->
  is_first_match bs u j = true.
Proof.
  revert j. induction bs as [|b0 bs IH]; intros j Hnd Hj Hu; [destruct j; discriminate|].
  simpl in Hnd. inversion Hnd as [|x l Hnin Hnd' Heq]; subst x l.
  unfold is_first_match. destruct j as [|j]; simpl in Hj |- *.
  - injection Hj as ->. rewrite Hu, String.eqb_refl. reflexivity.
  - rewrite Hj. pose proof (IH j Hnd' Hj Hu) as Hrec.
    unfold is_first_match in Hrec. rewrite Hj in Hrec.
    apply andb_prop in Hrec as [H1 H2]. rewrite H1, H2.
    destruct (String.eqb_spec (URL b0) u) as [E|E]; [|reflexivity].
    exfalso. apply Hnin. rewrite E, <- Hu. apply in_map, (nth_error_In _ _ Hj).
Qed.

Lemma mark_loop_dead_unique bs u j b :
  NoDup (map URL bs) -> nth_error (mark_loop bs u false) j = Some b -> URL b = u ->
  Alive b = false.
Proof.
  intros Hnd Hj Hu.
  assert (Hlt : (j < List.length bs)%nat).
  { rewrite <- (mark_loop_length bs u false). apply nth_error_Some. rewrite Hj. discriminate. }
  destruct (nth_error bs j) as [b0|] eqn:E0;
    [| apply nth_error_None in E0; lia].
  destruct (mark_loop_nth bs u false j b0 E0) as (b' & Hb' & HU & _ & HA).
  rewrite Hj in Hb'. injection Hb' as <-.
  rewrite (is_first_match_unique bs u j b0 Hnd E0) in HA; [exact HA|].
  rewrite <- HU. exact Hu.
Qed.

(** X3: with pairwise distinct backend addresses, once an address has
    been marked dead, [GetNextPeer] never selects a backend with that
    address (until its status changes again). *)
Theorem GetNextPeer_skips_demoted (s s' : ServerPool) (u : string) (idx : nat) (b : Backend)
  (Hnd : NoDup (map URL (backends s)))
  (Hg : GetNextPeer (MarkBackendStatus s u false) = Some (s', Some idx))
  (Hb : nth_error (backends s) idx = Some b) :
  URL b <> u.
Proof.
  intros Hu.
  pose proof (GetNextPeer_some _ _ _ Hg) as (_ & Ha & _).
  simpl in Ha. unfold alive_at, IsAlive in Ha.
  destruct (nth_error (mark_loop (backends s) u false) idx) as [b'|] eqn:E; [|discriminate].
  destruct (mark_loop_nth (backends s) u false idx b Hb) as (b'' & Hb'' & HU & _ & _).
  rewrite E in Hb''. injection Hb'' as <-.
  rewrite (mark_loop_dead_unique _ _ _ _ Hnd E) in Ha; [discriminate|].
  rewrite HU. exact Hu.
Qed.

Lemma GetNextPeer_skips_demoted_witness :
  GetNextPeer (MarkBackendStatus (pool_ABC 0) "http://B" false) =
    Some (mkPool (backends (MarkBackendStatus (pool_ABC 0) "http://B" false)) 2, Some 2%nat) /\
  URL (be "http://C" true 2) <> "http://B"%string.
Proof.
  assert (Hg : GetNextPeer (MarkBackendStatus (pool_ABC 0) "http://B" false) =
    Some (mkPool (backends (MarkBackendStatus (pool_ABC 0) "http://B" false)) 2, Some 2%nat))
    by (vm_compute; reflexivity).
  split; [exact Hg|].
  apply (GetNextPeer_skips_demoted (pool_ABC 0)
           (mkPool (backends (MarkBackendStatus (pool_ABC 0) "http://B" false)) 2)
           "http://B" 2 (be "http://C" true 2));
    [| exact Hg | reflexivity].
  simpl. repeat constructor; simpl; intuition discriminate.
Defined.

(** ** Two successive selections *)

Lemma mod_succ_back i k n :
  (i < n)%nat -> (k < n)%nat -> Nat.modulo (i + 1 + k) n = i -> k = (n - 1)%nat.
Proof.
  intros Hi Hk H. destruct (Nat.lt_ge_cases (i + 1 + k) n) as [Hs|Hs].
  - rewrite Nat.mod_small in H by exact Hs. lia.
  - replace (i + 1 + k)%nat with ((i + 1 + k - n) + 1 * n)%nat in H by lia.
    rewrite Nat.Div0.mod_add, Nat.mod_small in H by lia. lia.
Qed.

Lemma to_nat_mod_succ (x : Z) (n : nat) :
  (0 <= x)%Z -> (0 < n)%nat ->
  Z.to_nat ((x + 1) mod Z.of_nat n) = Nat.modulo (Z.to_nat (x mod Z.of_nat n) + 1) n.
Proof.
  intros Hx Hn. apply Nat2Z.inj.
  pose proof (Z.mod_pos_bound x (Z.of_nat n) ltac:(lia)).
  pose proof (Z.mod_pos_bound (x + 1) (Z.of_nat n) ltac:(lia)).
  rewrite Z2Nat.id by lia. rewrite Nat2Z.inj_mod, Nat2Z.inj_add, Z2Nat.id by lia.
  rewrite Zplus_mod_idemp_l. reflexivity.
Qed.

(** X4: while the cursor does not wrap, two successive selections with no
    status change in between never return the same backend when some
    other backend is alive; this holds whether or not the first selection
    fast-forwarded the cursor. *)
Theorem GetNextPeer_no_repeat (s s1 s2 : ServerPool) (i1 i2 a : nat)
  (Hc : (0 <= current s /\ current s + 2 < 2 ^ 64)%Z)
  (Hsize : (Z.of_nat (List.length (backends s)) < 2 ^ 64)%Z)
  (H1 : GetNextPeer s = Some (s1, Some i1))
  (H2 : GetNextPeer s1 = Some (s2, Some i2))
  (Ha : (a < List.length (backends s))%nat)
  (Halive : alive_at (backends s) a = true)
  (Hne : a <> i1) :
  i2 <> i1.
Proof.
  pose proof (GetNextPeer_some _ _ _ H1) as (Hb1 & _ & Hi1 & k1 & Hk1 & Hidx1 & _ & Hcur).
  pose proof (GetNextPeer_some _ _ _ H2) as (_ & _ & _ & k2 & Hk2 & Hidx2 & Hdead2 & _).
  cbv zeta in *. rewrite Hb1 in Hk2, Hidx2, Hdead2.
  set (N := List.length (backends s)) in *.
  assert (HN : (0 < N)%nat) by lia.
  (* the second scan starts right after the first result *)
  assert (Hst2 : Z.to_nat (AddUint64 (current s1) 1 mod Z.of_nat N) = Nat.modulo (i1 + 1) N).
  { unfold AddUint64, wrap64, uint64_modulus.
    destruct Hcur as [[-> Hc1] | [_ Hc1]]; rewrite Hc1.
    - subst i1. unfold AddUint64, wrap64, uint64_modulus.
      rewrite (Z.mod_small (current s + 1)) by lia.
      rewrite (Z.mod_small (current s + 1 + 1)) by lia.
      rewrite Nat.add_0_r, (Nat.mod_small _ _ (mod_index_lt _ _ HN)).
      apply to_nat_mod_succ; lia.
    - rewrite (Z.mod_small (Z.of_nat i1 + 1)) by lia.
      replace (Z.of_nat i1 + 1)%Z with (Z.of_nat (i1 + 1)) by lia.
      rewrite <- Nat2Z.inj_mod, Nat2Z.id. reflexivity. }
  rewrite Hst2 in Hidx2, Hdead2.
  intros ->.
  rewrite Nat.Div0.add_mod_idemp_l in Hidx2.
  pose proof (mod_succ_back i1 k2 N Hi1 Hk2 (eq_sym Hidx2)) as Hk2'.
  assert (Hst2lt : (Nat.modulo (i1 + 1) N < N)%nat) by (apply Nat.mod_upper_bound; lia).
  destruct (cyclic_cover N _ a Hst2lt Ha) as (k' & Hk' & Hpos).
  destruct (Nat.lt_ge_cases k' k2) as [Hlt|Hge].
  - pose proof (Hdead2 k' Hlt) as D. rewrite Hpos, Halive in D. discriminate.
  - assert (k' = k2) by lia. subst k'.
    rewrite <- Hpos, Nat.Div0.add_mod_idemp_l in Hne. congruence.
Qed.

Lemma GetNextPeer_no_repeat_witness :
  GetNextPeer pool_A_deadB_C = Some (mkPool (backends pool_A_deadB_C) 2, Some 2%nat) /\
  GetNextPeer (mkPool (backends pool_A_deadB_C) 2) =
    Some (mkPool (backends pool_A_deadB_C) 3, Some 0%nat) /\
  0%nat <> 2%nat.
Proof.
  assert (H1 : GetNextPeer pool_A_deadB_C = Some (mkPool (backends pool_A_deadB_C) 2, Some 2%nat))
    by (vm_compute; reflexivity).
  assert (H2 : GetNextPeer (mkPool (backends pool_A_deadB_C) 2) =
                 Some (mkPool (backends pool_A_deadB_C) 3, Some 0%nat))
    by (vm_compute; reflexivity).
  split; [exact H1|]. split; [exact H2|].
  apply (GetNextPeer_no_repeat pool_A_deadB_C (mkPool (backends pool_A_deadB_C) 2)
           (mkPool (backends pool_A_deadB_C) 3) 2 0 0);
    [simpl; lia | simpl; lia | exact H1 | exact H2 | simpl; lia | reflexivity | discriminate].
Defined.

(** ** Termination of one request *)

(** A step taken by the request itself (not by another request acting on
    the pool): it always changes the request's state. *)
Definition own_step (x y : ServerPool * ReqState) : Prop :=
  req_step x y /\ snd x <> snd y.

Definition alive_count (bs : list Backend) : nat := List.length (filter IsAlive bs).

Definition phase (st : ReqState) : nat :=
  match st with
  | Routing _ => 5
  | Dispatched _ c => 4 - ctx_Retry c
  | Completed | Failed => 0
  end.

Definition req_measure (x : ServerPool * ReqState) : nat :=
  6 * alive_count (backends (fst x)) + phase (snd x).

(** A dispatched request sits on an alive backend, under the retry ceiling. *)
Definition dispatch_ok (x : ServerPool * ReqState) : Prop :=
  match snd x with
  | Dispatched idx c => alive_at (backends (fst x)) idx = true /\ (ctx_Retry c <= 3)%nat
  | _ => True
  end.

Lemma GetNextPeer_backends s s' r :
  GetNextPeer s = Some (s', r) -> backends s' = backends s.
Proof.
  unfold GetNextPeer, NextIndex. destruct (go_umod _ _); [|discriminate].
  destruct (peer_scan _ _ _) as [[i idx]|]; [destruct (Nat.eqb _ _)|];
    intros [= <- _]; reflexivity.
Qed.

Lemma lb_backends s c s' o :
  lb s c = Some (s', o) -> backends s' = backends s.
Proof.
  unfold lb. destruct (Nat.ltb _ _); [intros [= <- _]; reflexivity|].
  destruct (GetNextPeer s) as [[s1 r]|] eqn:E; [|discriminate].
  apply GetNextPeer_backends in E. destruct r; intros [= <- _]; exact E.
Qed.

Lemma lb_forward_peer s c s' idx c' :
  lb s c = Some (s', Forward idx c') -> GetNextPeer s = Some (s', Some idx).
Proof.
  unfold lb. destruct (Nat.ltb _ _); [discriminate|].
  destruct (GetNextPeer s) as [[s1 [i|]]|]; try discriminate.
  intros [= <- <- _]. reflexivity.
Qed.

Lemma mark_loop_urls bs u a : map URL (mark_loop bs u a) = map URL bs.
Proof.
  induction bs as [|b bs IH]; simpl; [reflexivity|].
  destruct (String.eqb (URL b) u); simpl; congruence.
Qed.

Lemma mark_loop_alive_count bs idx b :
  NoDup (map URL bs) -> nth_error bs idx = Some b -> Alive b = true ->
  (alive_count (mark_loop bs (URL b) false) + 1 = alive_count bs)%nat.
Proof.
  unfold alive_count. revert idx.
  induction bs as [|b0 bs IH]; intros idx Hnd Hb Ha; [destruct idx; discriminate|].
  simpl in Hnd. inversion Hnd as [|x l Hnin Hnd' Heq]; subst x l.
  destruct idx as [|idx]; simpl in Hb.
  - injection Hb as ->. simpl. rewrite String.eqb_refl. simpl.
    unfold IsAlive at 2. rewrite Ha. simpl. lia.
  - simpl. destruct (String.eqb_spec (URL b0) (URL b)) as [E|E].
    + exfalso. apply Hnin. rewrite E. apply in_map, (nth_error_In _ _ Hb).
    + simpl. specialize (IH idx Hnd' Hb Ha).
      destruct (IsAlive b0); simpl; lia.
Qed.

Lemma own_step_decreases x y :
  NoDup (map URL (backends (fst x))) -> dispatch_ok x -> own_step x y ->
  NoDup (map URL (backends (fst y))) /\ dispatch_ok y /\ (req_measure y < req_measure x)%nat.
Proof.
  intros Hnd Hok [Hst Hne]. unfold req_measure, dispatch_ok in *.
  destruct Hst as [s c s' idx c' Hlb | s c s' o Hlb _ | s idx c
                  | s idx c b s' a Hb Heh | s s' st _];
    cbn [fst snd phase ctx_Retry ctx_Attempts] in *.
  - pose proof (lb_forward_peer _ _ _ _ _ Hlb) as Hg.
    pose proof (GetNextPeer_some _ _ _ Hg) as (Hbs & Ha & _).
    destruct (lb_forward_inv _ _ _ _ _ Hlb) as [-> Hr].
    rewrite Hbs. repeat split; auto. lia.
  - rewrite (lb_backends _ _ _ _ Hlb). repeat split; auto. lia.
  - repeat split; auto. lia.
  - destruct Hok as [Ha Hr].
    destruct (ErrorHandler_cases _ _ _ _ _ Heh) as [(Hlt & -> & ->) | (Hge & -> & ->)];
      cbn [after_handler fst snd phase ctx_Retry ctx_Attempts].
    + repeat split; auto; lia.
    + unfold MarkBackendStatus; cbn [backends]. rewrite mark_loop_urls.
      unfold alive_at in Ha. rewrite Hb in Ha.
      pose proof (mark_loop_alive_count _ _ _ Hnd Hb Ha) as Hc.
      repeat split; auto. lia.
  - congruence.
Qed.

Lemma own_step_acc n x :
  (req_measure x < n)%nat ->
  NoDup (map URL (backends (fst x))) -> dispatch_ok x ->
  Acc (fun y x => own_step x y) x.
Proof.
  revert x. induction n as [|n IH]; intros x Hm Hnd Hok; [lia|].
  constructor. intros y Hy.
  destruct (own_step_decreases _ _ Hnd Hok Hy) as (Hnd' & Hok' & Hlt).
  apply IH; auto. lia.
Qed.

(** X5: when the backends' addresses are pairwise distinct and no other
    request touches the pool, every request (from any state where a
    dispatched request sits on an alive backend under the retry ceiling,
    in particular a fresh one) is resolved after finitely many steps of
    its own: there is no infinite chain of retries and failovers. *)
Theorem request_terminates (x : ServerPool * ReqState)
  (Hnd : NoDup (map URL (backends (fst x))))
  (Hok : dispatch_ok x) :
  Acc (fun y x => own_step x y) x.
Proof. apply (own_step_acc (S (req_measure x))); auto. Qed.

Lemma request_terminates_witness :
  Acc (fun y x => own_step x y) (mkPool (bs_AB true true) 0, Routing fresh_ctx).
Proof.
  apply request_terminates; simpl; [|exact I].
  constructor; [simpl; intros [H|H]; [discriminate | exact H] |].
  constructor; [intros [] | constructor].
Defined.

(** ** Duplicate addresses *)

Definition bs_dup : list Backend :=
  [be "http://A" false 0; be "http://A" true 1].

Lemma acc_no_cycle {A} (R : A -> A -> Prop) x :
  Acc R x -> ~ clos_trans A R x x.
Proof.
  intros Hacc. apply (Acc_clos_trans A R) in Hacc.
  induction Hacc as [x _ IH]. intros Hxx. exact (IH x Hxx Hxx).
Qed.

(** X6: with two backends sharing one address, the first of them dead and
    the second alive, a fresh request whose forwards keep failing never
    terminates, even with no other request touching the pool: after its
    retries, the failover marks the (already dead) first backend, the
    second stays alive, and the request cycles between [lb] and the
    second backend forever. *)
Theorem duplicate_address_request_loops :
  req_steps (mkPool bs_dup 0, Routing fresh_ctx) (mkPool bs_dup 1, Routing (mkCtx 4 3)) /\
  ~ Acc (fun y x => own_step x y) (mkPool bs_dup 1, Routing (mkCtx 4 3)).
Proof.
  split.
  - do 4 run_step.
    eapply Relation_Operators.rt1n_trans; [|apply rt1n_refl].
    change (Routing (mkCtx 4 3)) with (after_handler 1 (Reroute (mkCtx 4 3))).
    eapply step_failure; reflexivity.
  - intros Hacc. apply (acc_no_cycle _ _ Hacc).
    apply t_trans with (y := (mkPool bs_dup 1, Dispatched 1 (mkCtx 4 3))); apply t_step.
    + split; [|discriminate].
      change (Routing (mkCtx 4 3)) with (after_handler 1 (Reroute (mkCtx 4 3))).
      eapply step_failure; reflexivity.
    + split; [|discriminate]. apply step_forward. reflexivity.
Qed.

(** ** Start-up: building the pool from the [-backends] flag *)

(** [strings.Split(s, ",")]: the pieces between the commas, in order; an
    empty string gives one empty piece. *)
Fixpoint Split_comma (s : string) : list string :=
  match s with
  | EmptyString => [EmptyString]
  | String ch rest =>
      let parts := Split_comma rest in
      if Ascii.eqb ch ","%char then EmptyString :: parts
      else match parts with
           | p :: ps => String ch p :: ps
           | [] => [String ch EmptyString]
           end
  end.

Fixpoint count_comma (s : string) : nat :=
  match s with
  | EmptyString => 0
  | String ch rest => (if Ascii.eqb ch ","%char then 1 else 0) + count_comma rest
  end.

Section Main.

(** [url.Parse(tok)] followed by [URL.String()]: [None] is a parse error. *)
Variable url_Parse : string -> option string.

(** The loop of [main] over the tokens: the [n]-th token becomes a backend,
    alive, with the [n]-th reverse proxy; a parse error is [log.Fatal]. *)
Fixpoint add_backends (toks : list string) (n : nat) (bs : list Backend)
  : option (list Backend) :=
  match toks with
  | [] => Some bs
  | tok :: rest =>
      match url_Parse tok with
      | None => None
      | Some u => add_backends rest (S n) (bs ++ [mkBackend u true n])
      end
  end.

(** The set-up part of [main]: [None] is [log.Fatal]; the global
    [serverPool] starts with no backends and cursor 0. *)
Definition main_setup (serverList : string) : option ServerPool :=
  if String.eqb serverList EmptyString then None
  else
    match add_backends (Split_comma serverList) 0 [] with
    | None => None
    | Some bs => Some (mkPool bs 0)
    end.

End Main.

Lemma Split_comma_nonempty s : Split_comma s <> [].
Proof.
  destruct s as [|ch rest]; simpl; [discriminate|].
  destruct (Ascii.eqb ch ","%char); [discriminate|].
  destruct (Split_comma rest); discriminate.
Qed.

(** X7: [strings.Split] on commas yields one more piece than there are
    commas, and joining the pieces with commas gives back the flag value. *)
Theorem Split_comma_roundtrip (s : string) :
  List.length (Split_comma s) = S (count_comma s) /\
  String.concat ","%string (Split_comma s) = s.
Proof.
  induction s as [|ch rest [IHl IHc]]; [split; reflexivity|]. simpl.
  pose proof (Split_comma_nonempty rest) as Hne.
  destruct (Ascii.eqb_spec ch ",") as [->|Hch].
  - split; [simpl; lia|].
    destruct (Split_comma rest) as [|p ps]; [contradiction|].
    rewrite <- IHc. reflexivity.
  - destruct (Split_comma rest) as [|p ps] eqn:E; [contradiction|].
    split; [simpl in *; lia|].
    destruct ps as [|q qs]; simpl in *; rewrite <- IHc; reflexivity.
Qed.

Lemma add_backends_spec p toks : forall n bs bs',
  add_backends p toks n bs = Some bs' ->
  exists nb, bs' = bs ++ nb /\ map Some (map URL nb) = map p toks /\
    forallb IsAlive nb = true.
Proof.
  induction toks as [|tok rest IH]; intros n bs bs' H; simpl in H.
  - injection H as <-. exists []. rewrite app_nil_r. auto.
  - destruct (p tok) as [u|] eqn:Ep; [|discriminate].
    destruct (IH _ _ _ H) as (nb & -> & Hu & Ha).
    exists (mkBackend u true n :: nb). rewrite <- app_assoc. simpl.
    rewrite Hu, Ep. auto.
Qed.

Lemma add_backends_total p toks : forall n bs,
  (forall tok, In tok toks -> p tok <> None) ->
  exists bs', add_backends p toks n bs = Some bs'.
Proof.
  induction toks as [|tok rest IH]; intros n bs H; simpl; [eauto|].
  destruct (p tok) as [u|] eqn:Ep; [|exfalso; apply (H tok); [left; reflexivity | exact Ep]].
  apply IH. intros t Ht. apply H. right. exact Ht.
Qed.

(** X8: start-up refuses an empty [-backends] flag and any token that does
    not parse; otherwise it builds a pool of one backend per token, in
    order, every one alive, with the cursor at 0, and it builds one
    whenever every token parses.  So the pool that [lb] serves from is
    never empty and [NextIndex] never divides by zero. *)
Theorem main_setup_pool (url_Parse : string -> option string) (s : string) :
  main_setup url_Parse EmptyString = None /\
  (forall pool, main_setup url_Parse s = Some pool ->
     s <> EmptyString /\ current pool = 0%Z /\
     map Some (map URL (backends pool)) = map url_Parse (Split_comma s) /\
     all_alive (backends pool) = true /\
     List.length (backends pool) = S (count_comma s) /\
     NextIndex pool <> None) /\
  (s <> EmptyString -> (forall tok, In tok (Split_comma s) -> url_Parse tok <> None) ->
     exists pool, main_setup url_Parse s = Some pool).
Proof.
  split; [reflexivity|]. split.
  - intros pool H. unfold main_setup in H.
    destruct (String.eqb_spec s EmptyString) as [E|E]; [discriminate|].
    destruct (add_backends _ _ _ _) as [bs|] eqn:Eb; [|discriminate].
    injection H as <-. simpl.
    destruct (add_backends_spec _ _ _ _ _ Eb) as (nb & -> & Hu & Ha). simpl in *.
    assert (Hlen : List.length nb = S (count_comma s)).
    { rewrite <- (proj1 (Split_comma_roundtrip s)).
      rewrite <- (length_map url_Parse), <- Hu, !length_map. reflexivity. }
    split; [exact E|]. split; [reflexivity|]. split; [exact Hu|]. split; [exact Ha|].
    split; [exact Hlen|].
    rewrite (NextIndex_eq (mkPool nb 0)) by (simpl; lia). discriminate.
  - intros Hs Hall. unfold main_setup.
    destruct (String.eqb_spec s EmptyString) as [E|E]; [contradiction|].
    destruct (add_backends_total url_Parse (Split_comma s) 0 [] Hall) as [bs ->].
    eauto.
Qed.

Lemma main_setup_pool_witness :
  exists pool, main_setup (fun t => Some t) "http://a,http://b" = Some pool.
Proof.
  apply (proj2 (proj2 (main_setup_pool (fun t => Some t) "http://a,http://b"))).
  - discriminate.
  - intros tok _. discriminate.
Defined.

Lemma lb_ceiling_unreachable_witness :
  lb (mkPool (bs_AB true false) 1) (mkCtx 4 3)
    <> Some (mkPool (bs_AB true false) 1, Unavailable_MaxAttempts).
Proof.
  exact (lb_ceiling_unreachable _ _ _ run_AB_failover (mkPool (bs_AB true false) 1)).
Defined.
